(** * container/stream: stream plumbing of a container process

    Shallow embedding of [container/stream/streams.go]:
    [applyTransformations], [TransformWriter.Write], [Config.CloseStreams]
    and the sequential part of [Config.CopyToPipe] (which tasks it spawns,
    with which writers, and what it does to the wait group). *)

From Stdlib Require Import ZArith List Bool Lia.
From Stdlib.Strings Require Import Ascii String Byte.
Import ListNotations.

Local Open Scope Z_scope.

(** ** Go runtime values used by the package *)

Module Go.

(** Go's [int] is a signed 64-bit integer; arithmetic wraps around. *)
Definition int_min : Z := - 2 ^ 63.
Definition int_max : Z := 2 ^ 63 - 1.

Definition wrap (x : Z) : Z := (x + 2 ^ 63) mod 2 ^ 64 - 2 ^ 63.

Definition int_sub (a b : Z) : Z := wrap (a - b).

(** [len(s)] of a slice. *)
Definition len {A : Type} (s : list A) : Z := Z.of_nat (List.length s).

(** [s[i:]] for an index [0 <= i <= len(s)]. *)
Definition slice_from {A : Type} (s : list A) (i : Z) : list A :=
  skipn (Z.to_nat i) s.

(** The [error] interface, observed through its [Error()] method. *)
Record error : Type := errorString { Error : string }.

(** [strings.Join]. *)
Fixpoint Join (elems : list string) (sep : string) : string :=
  match elems with
  | [] => EmptyString
  | [e] => e
  | e :: rest => (e ++ sep ++ Join rest sep)%string
  end.

(** [io.Writer]: one call takes the state of the writer and the bytes and
    gives back the new state, the count and the error. *)
Class Writer (W : Type) : Type :=
  write : W -> list byte -> W * (Z * option error).

(** [io.Closer]. *)
Class Closer (C : Type) : Type :=
  Close : C -> C * option error.

(** [broadcaster.Unbuffered], as far as this package uses it: [Clean]
    closes the writers added to it and reports the failures as one error. *)
Class Broadcaster (B : Type) : Type :=
  Clean : B -> B * option error.

(** The [regexp] package, as far as this package uses it. *)
Class Regexp (R : Type) : Type := {
  MustCompile : string -> R;
  ReplaceAllString : R -> string -> string -> string
}.

End Go.

Import Go.

(** ** Transformations *)

Section Transform.

Context {R : Type} `{Regexp R}.

Record Transformation : Type := {
  Pattern : R;
  Replacement : string
}.

(** [for _, t := range transformations { s = t.Pattern.ReplaceAllString(s, t.Replacement) }] *)
Definition applyTransformations (s : string)
    (transformations : list Transformation) : string :=
  fold_left (fun s t => ReplaceAllString (Pattern t) s (Replacement t))
            transformations s.

Definition maxTransformLength : Z := 100.

Definition max (a b : Z) : Z := if a >? b then a else b.

Section Writer.

Context {W : Type} `{Writer W}.

Record TransformWriter : Type := {
  w : W;
  transformations : list Transformation;
  buffer : list byte
}.

(** [TransformWriter.Write]: the receiver is threaded through. *)
Definition Write (tw : TransformWriter) (p : list byte)
    : TransformWriter * (Z * option error) :=
  let payload := buffer tw ++ p in
  let transformed :=
    applyTransformations (string_of_list_byte payload) (transformations tw) in
  let buffer' :=
    slice_from payload (max 0 (len payload - maxTransformLength)) in
  let '(w', (n, err)) := write (w tw) (list_byte_of_string transformed) in
  ({| w := w'; transformations := transformations tw; buffer := buffer' |},
   (int_sub n (len buffer'), err)).

End Writer.

End Transform.

Arguments Transformation R : clear implicits.
Arguments TransformWriter R W : clear implicits.

(** ** A regexp engine for literal patterns

    This engine stands for Go's [regexp] on its literal fragment only: a
    pattern that is a non-empty run of printable ASCII bytes none of which
    is a metacharacter, and a replacement without [$] (see [literal_text]
    and [plain_replacement] below). There [ReplaceAllString] scans the
    bytes from the left, replaces the pattern where it finds it, copies the
    replacement as it is and goes on behind the match. Outside the fragment
    (metacharacters, the empty pattern, [$] in a replacement) Go does
    something else, and nothing is stated about this engine: every general
    statement below carries the fragment as a hypothesis. *)

Module LiteralRegexp.

Inductive t : Type := Lit (pat : string).

Fixpoint is_prefix (pat s : list byte) : bool :=
  match pat, s with
  | [], _ => true
  | _ :: _, [] => false
  | a :: pat', b :: s' => Byte.eqb a b && is_prefix pat' s'
  end.

(** [skip] counts the bytes of a match that are still to be passed. *)
Fixpoint replaceFrom (pat rep : list byte) (skip : nat) (s : list byte)
    : list byte :=
  match s with
  | [] => []
  | c :: s' =>
      match skip with
      | S k => replaceFrom pat rep k s'
      | O =>
          if is_prefix pat s
          then rep ++ replaceFrom pat rep (List.length pat - 1) s'
          else c :: replaceFrom pat rep 0 s'
      end
  end.

Definition replaceAll (pat rep s : list byte) : list byte :=
  replaceFrom pat rep 0 s.

#[global] Instance engine : Regexp t := {
  MustCompile := Lit;
  ReplaceAllString '(Lit pat) src repl :=
    string_of_list_byte
      (replaceAll (list_byte_of_string pat) (list_byte_of_string repl)
                  (list_byte_of_string src))
}.

(** What the spec calls replacing all non-overlapping leftmost matches:
    either the pattern does not occur, or the text is cut at the leftmost
    occurrence and the rest is treated the same way. *)
Inductive ReplacedAll (pat rep : list byte) : list byte -> list byte -> Prop :=
| RA_none : forall s,
    (forall u v, s <> u ++ pat ++ v) ->
    ReplacedAll pat rep s s
| RA_first : forall u v out,
    (forall u' v', u ++ pat ++ v = u' ++ pat ++ v' ->
                   (List.length u <= List.length u')%nat) ->
    ReplacedAll pat rep v out ->
    ReplacedAll pat rep (u ++ pat ++ v) (u ++ rep ++ out).

End LiteralRegexp.

(** [bytes.Buffer] as a downstream writer: it takes everything. *)
Module Buffer.

Definition t : Type := list byte.

#[global] Instance writer : Writer t :=
  fun buf p => (buf ++ p, (len p, None)).

End Buffer.

(** A writer that keeps the list of the calls made to it, and answers each
    call as [answer] says. *)
Module Recorder.

Record t : Type := {
  calls : list (list byte);
  answer : list (list byte) -> list byte -> Z * option error
}.

#[global] Instance writer : Writer t :=
  fun r p =>
    ({| calls := calls r ++ [p]; answer := answer r |}, answer r (calls r) p).

(** The answers of [bytes.Buffer]. *)
Definition accepting : t :=
  {| calls := []; answer := fun _ p => (len p, None) |}.

End Recorder.

Import LiteralRegexp.

Definition rule (pat repl : string) : Transformation LiteralRegexp.t :=
  {| Pattern := MustCompile pat; Replacement := repl |}.

Definition bytes (s : string) : list byte := list_byte_of_string s.

(** The bytes with a meaning of their own in Go's regexp syntax (the ones
    [regexp.QuoteMeta] escapes). *)
Definition metacharacters : list byte := bytes "\.+*?()|[]{}^$".

Definition is_meta (b : byte) : bool := existsb (Byte.eqb b) metacharacters.

(** Printable ASCII: 0x20 to 0x7e. *)
Definition is_printable (b : byte) : bool :=
  (32 <=? Z.of_N (Byte.to_N b)) && (Z.of_N (Byte.to_N b) <=? 126).

(** A pattern of the literal fragment: not empty, printable ASCII, no
    metacharacter. Go compiles it to the regexp that matches exactly this
    byte string. *)
Definition literal_text (pat : string) : bool :=
  match bytes pat with
  | [] => false
  | bs => forallb (fun b => is_printable b && negb (is_meta b)) bs
  end.

(** A replacement Go copies as it is: no [$]. *)
Definition plain_replacement (repl : string) : bool :=
  forallb (fun b => negb (Byte.eqb b x24)) (bytes repl).

Definition literal_pattern (t : Transformation LiteralRegexp.t) : Prop :=
  match Pattern t with
  | Lit pat => literal_text pat = true
  end.

(** A rule of the literal fragment. *)
Definition literal_rule (t : Transformation LiteralRegexp.t) : Prop :=
  literal_pattern t /\ plain_replacement (Replacement t) = true.

(** [&TransformWriter{w: w, transformations: transformations}] *)
Definition newTransformWriter {R W : Type} (w0 : W)
    (ts : list (Transformation R)) : TransformWriter R W :=
  {| w := w0; transformations := ts; buffer := [] |}.

(** Successive [Write] calls on one writer, with the result of each. *)
Fixpoint WriteAll {R W : Type} `{Regexp R} `{Writer W}
    (tw : TransformWriter R W) (chunks : list (list byte))
    : TransformWriter R W * list (Z * option error) :=
  match chunks with
  | [] => (tw, [])
  | p :: rest =>
      let '(tw', r) := Write tw p in
      let '(tw'', rs) := WriteAll tw' rest in
      (tw'', r :: rs)
  end.

(** ** The stream configuration *)

Section Config.

Context {R : Type} `{Regexp R}.

(** The endpoints: [io.ReadCloser], [io.WriteCloser] and
    [*broadcaster.Unbuffered]. *)
Context {RC WC B : Type} `{Closer RC} `{Broadcaster B}.

(** [fmt.Errorf] called with a format and no operands. *)
Variable Errorf : string -> error.

(** [cio.DirectIO]: each endpoint may be nil. *)
Record DirectIO : Type := {
  dio_Stdin : option WC;
  dio_Stdout : option RC;
  dio_Stderr : option RC
}.

(** [wg] is the counter of the [sync.WaitGroup]. *)
Record Config : Type := {
  wg : Z;
  stdout : B;
  stderr : B;
  stdin : option RC;
  stdinPipe : option WC;
  dio : option DirectIO
}.

Definition Stdout (c : Config) : B := stdout c.
Definition Stderr (c : Config) : B := stderr c.
Definition Stdin (c : Config) : option RC := stdin c.

(** [fmt.Sprintf("error close <name>: %s", err)] *)
Definition close_message (name : string) (err : error) : string :=
  ("error close " ++ name ++ ": " ++ Error err)%string.

(** One step of [CloseStreams]: [errors = append(errors, ...)] when the
    operation failed. *)
Definition collect (name : string) (res : option error)
    (errors : list string) : list string :=
  match res with
  | Some err => errors ++ [close_message name err]
  | None => errors
  end.

Definition CloseStreams (c : Config) : Config * option error :=
  let errors := [] in
  let '(stdin', errors) :=
    match stdin c with
    | Some r =>
        let '(r', res) := Close r in (Some r', collect "stdin" res errors)
    | None => (None, errors)
    end in
  let '(stdout', res) := Clean (stdout c) in
  let errors := collect "stdout" res errors in
  let '(stderr', res) := Clean (stderr c) in
  let errors := collect "stderr" res errors in
  let c' := {| wg := wg c; stdout := stdout'; stderr := stderr';
               stdin := stdin'; stdinPipe := stdinPipe c; dio := dio c |} in
  if len errors >? 0
  then (c', Some (Errorf (Join errors (String (ascii_of_nat 10) EmptyString))))
  else (c', None).

(** *** CopyToPipe *)

(** The two function literals started with [go]. *)
Inductive Goroutine : Type :=
| copyTask (tw : TransformWriter R B) (r : RC)
| stdinTask (dst : WC) (src : RC).

(** What a started task does once its copy has returned; [copy_err] and
    [close_err] are the results of [pools.Copy] and of [iop.Stdin.Close]. *)
Inductive Step : Type :=
| LogErrorf (err : error)
| LogWarnf (err : error)
| CloseReader (r : RC)
| CloseWriter (dst : WC)
| WgDone.

Definition after_copy (g : Goroutine) (copy_err close_err : option error)
    : list Step :=
  match g with
  | copyTask tw r =>
      match copy_err with Some err => [LogErrorf err] | None => [] end
      ++ [CloseReader r; WgDone]
  | stdinTask dst src =>
      CloseWriter dst ::
      match close_err with Some err => [LogWarnf err] | None => [] end
  end.

(** What [CopyToPipe] itself does, in order. *)
Inductive Effect : Type :=
| WgAdd (delta : Z)
| GoStmt (g : Goroutine).

Definition copyFunc (w0 : B) (r : RC) (ts : list (Transformation R))
    : list Effect :=
  let tw := newTransformWriter w0 ts in
  [WgAdd 1; GoStmt (copyTask tw r)].

Definition stdoutTransforms : list (Transformation R) :=
  [ {| Pattern := MustCompile "{black}"; Replacement := "{white}" |} ].

Definition stderrTransforms : list (Transformation R) :=
  [ {| Pattern := MustCompile "{red}"; Replacement := "{grn}" |} ].

Definition CopyToPipe_effects (c : Config) (iop : DirectIO) : list Effect :=
  match dio_Stdout iop with
  | Some r => copyFunc (Stdout c) r stdoutTransforms
  | None => []
  end ++
  match dio_Stderr iop with
  | Some r => copyFunc (Stderr c) r stderrTransforms
  | None => []
  end ++
  match Stdin c with
  | Some src =>
      match dio_Stdin iop with
      | Some dst => [GoStmt (stdinTask dst src)]
      | None => []
      end
  | None => []
  end.

(** The counter after the [Add] calls of a run. *)
Fixpoint wg_after (n : Z) (effs : list Effect) : Z :=
  match effs with
  | [] => n
  | WgAdd d :: rest => wg_after (n + d) rest
  | GoStmt _ :: rest => wg_after n rest
  end.

Fixpoint spawned (effs : list Effect) : list Goroutine :=
  match effs with
  | [] => []
  | WgAdd _ :: rest => spawned rest
  | GoStmt g :: rest => g :: spawned rest
  end.

Definition CopyToPipe (c : Config) (iop : DirectIO) : Config * list Effect :=
  let effs := CopyToPipe_effects c iop in
  ({| wg := wg_after (wg c) effs; stdout := stdout c; stderr := stderr c;
      stdin := stdin c; stdinPipe := stdinPipe c; dio := Some iop |},
   effs).

(** The messages one operation of [CloseStreams] contributes. *)
Definition failure (name : string) (res : option error) : list string :=
  match res with
  | Some err => [close_message name err]
  | None => []
  end.

Definition is_copyTask (g : Goroutine) : bool :=
  match g with
  | copyTask _ _ => true
  | stdinTask _ _ => false
  end.

(** A task is counted when [CopyToPipe] adds one to the wait group right
    before starting it and the task calls [Done] once its copy is over. *)
Definition counted (effs : list Effect) (g : Goroutine) : Prop :=
  (exists pre post, effs = pre ++ [WgAdd 1; GoStmt g] ++ post)
  /\ forall copy_err close_err, In WgDone (after_copy g copy_err close_err).

Definition every_task_counted (c : Config) (iop : DirectIO) : Prop :=
  forall g, In g (spawned (snd (CopyToPipe c iop))) ->
            counted (snd (CopyToPipe c iop)) g.

(** The copy tasks of stdout and stderr run with the rule lists
    [outRules] and [errRules]. *)
Definition rules_applied (outRules errRules : list (Transformation R))
    (c : Config) (iop : DirectIO) : Prop :=
  (forall r, dio_Stdout iop = Some r ->
     In (copyTask (newTransformWriter (Stdout c) outRules) r)
        (spawned (snd (CopyToPipe c iop))))
  /\ (forall r, dio_Stderr iop = Some r ->
     In (copyTask (newTransformWriter (Stderr c) errRules) r)
        (spawned (snd (CopyToPipe c iop)))).

End Config.

Arguments DirectIO RC WC : clear implicits.
Arguments Config RC WC B : clear implicits.
Arguments Goroutine R RC WC B : clear implicits.
Arguments Effect R RC WC B : clear implicits.
Arguments Step RC WC : clear implicits.

(** ** Concrete inputs *)

Definition blackwhite : list (Transformation LiteralRegexp.t) :=
  [rule "black" "white"; rule "red" "green"].

Definition chunk1 : list byte := bytes "The black cat is on the red mat.".
Definition chunk2 : list byte := bytes "The red cat is on the black mat.".

(** A configuration with a stdin pipe, and an I/O source with all three
    endpoints; endpoints and broadcasters are named by strings. *)
Definition config0 : Config string string string :=
  {| wg := 0; stdout := "stdout broadcaster"%string; stderr := "stderr broadcaster"%string;
     stdin := Some "stdin pipe reader"%string; stdinPipe := Some "stdin pipe writer"%string;
     dio := None |}.

Definition iop0 : DirectIO string string :=
  {| dio_Stdin := Some "process stdin"%string;
     dio_Stdout := Some "process stdout"%string;
     dio_Stderr := Some "process stderr"%string |}.

(** The method set of [*TransformWriter]. *)
Inductive Method : Type :=
| MWrite (p : list byte).

Definition call {R W : Type} `{Regexp R} `{Writer W}
    (tw : TransformWriter R W) (m : Method)
    : TransformWriter R W * (Z * option error) :=
  match m with
  | MWrite p => Write tw p
  end.

(** What [Write] hands to the downstream writer. *)
Definition forwarded {R : Type} `{Regexp R}
    (ts : list (Transformation R)) (payload : list byte) : list byte :=
  list_byte_of_string (applyTransformations (string_of_list_byte payload) ts).

(** The last [n] bytes of [s] (all of [s] when it is shorter). *)
Definition last_bytes (n : nat) (s : list byte) : list byte :=
  skipn (List.length s - n) s.

(** The spec's reading of [applyTransformations] for literal rules: each
    rule in order replaces all leftmost non-overlapping matches in the
    current string, and its result is the input of the next rule. *)
Inductive AppliedInOrder
    : list (Transformation LiteralRegexp.t) -> string -> string -> Prop :=
| AIO_nil : forall s, AppliedInOrder [] s s
| AIO_cons : forall pat repl ts s s1 out,
    ReplacedAll (bytes pat) (bytes repl) (bytes s) (bytes s1) ->
    AppliedInOrder ts s1 out ->
    AppliedInOrder (rule pat repl :: ts) s out.

Definition nonempty_pattern (t : Transformation LiteralRegexp.t) : Prop :=
  Pattern t <> Lit EmptyString.

(** ** Further definitions: runs of Write, the life cycle of a Config *)

(** The working sequences ([payload] in [Write]) of successive calls,
    starting from the retained buffer [buf]. *)
Fixpoint payloads (buf : list byte) (chunks : list (list byte))
    : list (list byte) :=
  match chunks with
  | [] => []
  | p :: rest => (buf ++ p) :: payloads (last_bytes 100 (buf ++ p)) rest
  end.

(** Where the pattern first occurs in [s], if it does. *)
Fixpoint first_match (pat s : list byte) : option nat :=
  if is_prefix pat s then Some 0%nat
  else match s with
       | [] => None
       | _ :: s' => option_map S (first_match pat s')
       end.

(** A literal rule that the text [s] does not trigger. *)
Definition untouched_by (s : string) (t : Transformation LiteralRegexp.t) : Prop :=
  match Pattern t with
  | Lit pat => first_match (bytes pat) (bytes s) = None
  end.

(** A literal rule whose replacement is as long as its pattern. *)
Definition same_length (t : Transformation LiteralRegexp.t) : Prop :=
  nonempty_pattern t
  /\ match Pattern t with
     | Lit pat => len (bytes (Replacement t)) = len (bytes pat)
     end.

(** The separator [CloseStreams] joins its messages with. *)
Definition LF : string := String (ascii_of_nat 10) EmptyString.

Fixpoint percent_free (s : string) : bool :=
  match s with
  | EmptyString => true
  | String c rest => negb (Ascii.eqb c "%") && percent_free rest
  end.

(** Endpoints whose [Close] or [Clean] returns what they hold. *)
Module Scripted.

Definition t : Type := option error.

#[global] Instance closer : Closer t := fun r => (r, r).

#[global] Instance broadcaster : Broadcaster t := fun b => (b, b).

End Scripted.

(** What [fmt] makes of a format without operands whose only [%], if any,
    is its last byte: the text is copied, and a [%] at the end, which has
    no verb, is followed by [!(NOVERB)]. *)
Fixpoint format_trailing_percent (format : string) : string :=
  match format with
  | EmptyString => EmptyString
  | String c rest =>
      match rest with
      | EmptyString =>
          if Ascii.eqb c "%" then "%!(NOVERB)"%string else String c EmptyString
      | String _ _ => String c (format_trailing_percent rest)
      end
  end.

(** stdout's [Clean] fails with "pipe closed", stderr's with
    "disk at 100%"; there is no stdin. *)
Definition failing_config : Config Scripted.t string Scripted.t :=
  {| wg := 0;
     stdout := Some {| Error := "pipe closed" |};
     stderr := Some {| Error := "disk at 100%" |};
     stdin := None; stdinPipe := None; dio := None |}.

Section Lifecycle.

Context {R : Type} `{Regexp R} {RC WC B : Type}.

(** [new(broadcaster.Unbuffered)], [io.Pipe()] and
    [ioutils.NopWriteCloser(io.Discard)]. *)
Variable new_Unbuffered : B.
Variable io_Pipe : RC * WC.
Variable NopWriteCloser_Discard : WC.

Definition NewConfig : Config RC WC B :=
  {| wg := 0; stdout := new_Unbuffered; stderr := new_Unbuffered;
     stdin := None; stdinPipe := None; dio := None |}.

Definition StdinPipe (c : Config RC WC B) : option WC := stdinPipe c.

(** [c.stdin, c.stdinPipe = io.Pipe()] *)
Definition NewInputPipes (c : Config RC WC B) : Config RC WC B :=
  {| wg := wg c; stdout := stdout c; stderr := stderr c;
     stdin := Some (fst io_Pipe); stdinPipe := Some (snd io_Pipe);
     dio := dio c |}.

Definition NewNopInputPipe (c : Config RC WC B) : Config RC WC B :=
  {| wg := wg c; stdout := stdout c; stderr := stderr c;
     stdin := stdin c; stdinPipe := Some NopWriteCloser_Discard;
     dio := dio c |}.

(** The case of the [select] in [Wait] that fires. *)
Inductive Select : Type :=
| DoneClosed
| CtxDone.

(** The calls [Wait] makes on the attached source. *)
Inductive DioCall : Type :=
| DioCancel (d : DirectIO RC WC)
| DioWait (d : DirectIO RC WC)
| DioClose (d : DirectIO RC WC).

Definition Wait (c : Config RC WC B) (fired : Select) : list DioCall :=
  match fired with
  | DoneClosed => []
  | CtxDone =>
      match dio c with
      | Some d => [DioCancel d; DioWait d; DioClose d]
      | None => []
      end
  end.

(** The counter after a task has gone through its last steps. *)
Fixpoint wg_after_steps (n : Z) (steps : list (Step RC WC)) : Z :=
  match steps with
  | [] => n
  | WgDone :: rest => wg_after_steps (n - 1) rest
  | _ :: rest => wg_after_steps n rest
  end.

(** The counter once every task of [tasks] has returned from its copy;
    [copy_res] and [close_res] give the results each task met. *)
Definition wg_after_tasks (n : Z) (tasks : list (Goroutine R RC WC B))
    (copy_res close_res : Goroutine R RC WC B -> option error) : Z :=
  fold_left
    (fun n g => wg_after_steps n (after_copy g (copy_res g) (close_res g)))
    tasks n.

End Lifecycle.

(** ** Arithmetic of Go's int *)

Lemma wrap_in_range (x : Z) : int_min <= x <= int_max -> wrap x = x.
Proof.
  unfold wrap, int_min, int_max. intros Hx.
  rewrite Z.mod_small; lia.
Qed.

Lemma int_sub_exact (a b : Z) :
  int_min <= a - b <= int_max -> int_sub a b = a - b.
Proof. apply wrap_in_range. Qed.

Lemma max_is_Zmax (a b : Z) : max a b = Z.max a b.
Proof.
  unfold max. destruct (Z.gtb_spec a b); lia.
Qed.

Lemma len_app {A : Type} (s t : list A) : len (s ++ t) = len s + len t.
Proof. unfold len. rewrite length_app. lia. Qed.

Lemma len_nonneg {A : Type} (s : list A) : 0 <= len s.
Proof. unfold len. lia. Qed.

(** ** The retained buffer *)

Lemma retained_is_last_bytes (payload : list byte) :
  slice_from payload (max 0 (len payload - maxTransformLength))
  = last_bytes 100 payload.
Proof.
  unfold slice_from, last_bytes, maxTransformLength, len.
  f_equal. rewrite max_is_Zmax. lia.
Qed.

Lemma last_bytes_length (n : nat) (s : list byte) :
  List.length (last_bytes n s) = Nat.min (List.length s) n.
Proof. unfold last_bytes. rewrite length_skipn. lia. Qed.

Lemma last_bytes_suffix (n : nat) (s : list byte) :
  s = firstn (List.length s - n) s ++ last_bytes n s.
Proof. unfold last_bytes. symmetry. apply firstn_skipn. Qed.

Lemma last_bytes_short (n : nat) (s : list byte) :
  (List.length s <= n)%nat -> last_bytes n s = s.
Proof.
  intros Hle. unfold last_bytes.
  replace (List.length s - n)%nat with 0%nat by lia. reflexivity.
Qed.

Lemma len_last_bytes (s : list byte) :
  len (last_bytes 100 s) = Z.min (len s) 100.
Proof. unfold len. rewrite last_bytes_length. lia. Qed.

(** ** One call of Write *)

Section WriteFacts.

Context {R W : Type} `{Regexp R} `{Writer W}.

Lemma Write_eq (tw : TransformWriter R W) (p : list byte) :
  Write tw p =
  let payload := buffer tw ++ p in
  let down := write (w tw) (forwarded (transformations tw) payload) in
  ({| w := fst down; transformations := transformations tw;
      buffer := last_bytes 100 payload |},
   (int_sub (fst (snd down)) (len (last_bytes 100 payload)), snd (snd down))).
Proof.
  unfold Write, forwarded. cbv zeta.
  rewrite retained_is_last_bytes.
  destruct (write _ _) as [w' [n err]]. reflexivity.
Qed.

Lemma Write_buffer (tw : TransformWriter R W) (p : list byte) :
  buffer (fst (Write tw p)) = last_bytes 100 (buffer tw ++ p).
Proof. rewrite Write_eq. reflexivity. Qed.

Lemma Write_transformations (tw : TransformWriter R W) (p : list byte) :
  transformations (fst (Write tw p)) = transformations tw.
Proof. rewrite Write_eq. reflexivity. Qed.

Lemma Write_downstream (tw : TransformWriter R W) (p : list byte) :
  w (fst (Write tw p))
  = fst (write (w tw) (forwarded (transformations tw) (buffer tw ++ p))).
Proof. rewrite Write_eq. reflexivity. Qed.

(** The lookback buffer never grows beyond [maxTransformLength]. *)
Lemma Write_buffer_bounded (tw : TransformWriter R W) (p : list byte) :
  len (buffer (fst (Write tw p))) <= maxTransformLength.
Proof.
  rewrite Write_buffer, len_last_bytes. unfold maxTransformLength. lia.
Qed.

End WriteFacts.

Lemma forwarded_no_rules {R : Type} `{Regexp R} (payload : list byte) :
  forwarded (@nil (Transformation R)) payload = payload.
Proof.
  unfold forwarded. simpl. apply list_byte_of_string_of_list_byte.
Qed.

Lemma Recorder_write (r : Recorder.t) (p : list byte) :
  write r p
  = ({| Recorder.calls := Recorder.calls r ++ [p];
        Recorder.answer := Recorder.answer r |},
     Recorder.answer r (Recorder.calls r) p).
Proof. reflexivity. Qed.

Lemma last_bytes_min (s : list byte) :
  last_bytes (Z.to_nat (Z.min (len s) 100)) s = last_bytes 100 s.
Proof.
  unfold last_bytes, len. f_equal. lia.
Qed.

(** C5: one call of [Write] on a writer holding [buf], with any downstream
    writer (it records its calls and answers them in any way): the new
    retained buffer is the last min(len(buf ++ p), 100) bytes of the
    working sequence [buf ++ p] before transformation; the downstream writer
    is called exactly once, with the transformed sequence; the error it
    returns is returned as it is; the count returned is the count it reports
    minus (Go's int subtraction) the length of the new retained buffer, which
    is the plain difference whenever the reported count is not negative. *)
Theorem Write_single_call {R : Type} `{Regexp R}
    (ts : list (Transformation R)) (r : Recorder.t) (buf p : list byte) :
  let tw := {| w := r; transformations := ts; buffer := buf |} in
  let payload := buf ++ p in
  let transformed := forwarded ts payload in
  let reply := Recorder.answer r (Recorder.calls r) transformed in
  let tw' := fst (Write tw p) in
  let result := snd (Write tw p) in
  buffer tw' = last_bytes (Z.to_nat (Z.min (len payload) 100)) payload
  /\ len (buffer tw') = Z.min (len payload) 100
  /\ Recorder.calls (w tw') = Recorder.calls r ++ [transformed]
  /\ snd result = snd reply
  /\ fst result = int_sub (fst reply) (len (buffer tw'))
  /\ (0 <= fst reply <= int_max ->
      fst result = fst reply - len (buffer tw')).
Proof.
  intros tw payload transformed reply tw' result.
  subst tw' result. rewrite Write_eq. cbn [fst snd buffer w transformations tw].
  fold payload. fold transformed. rewrite Recorder_write. cbn [fst snd].
  fold reply. rewrite last_bytes_min.
  repeat split; try reflexivity.
  - apply len_last_bytes.
  - intros Hn. apply int_sub_exact.
    rewrite len_last_bytes. pose proof (len_nonneg payload).
    unfold int_min, int_max in *. lia.
Qed.

(** C2: two successive calls of [Write]. Each call hands the whole
    transformed working sequence (retained buffer followed by the chunk) to
    the downstream writer; the buffer retained by the first call is the tail
    (at most 100 bytes) of a working sequence that was already forwarded, and
    the second call forwards it again in front of the second chunk. [Write]
    is the only method, so every call on the writer is of this form. *)
Theorem Write_forwards_retained_again {R : Type} `{Regexp R}
    (ts : list (Transformation R)) (r : Recorder.t) (buf p1 p2 : list byte) :
  let tw := {| w := r; transformations := ts; buffer := buf |} in
  let tw1 := fst (Write tw p1) in
  let tw2 := fst (Write tw1 p2) in
  Recorder.calls (w tw2)
  = Recorder.calls r ++ [forwarded ts (buf ++ p1);
                         forwarded ts (buffer tw1 ++ p2)]
  /\ buffer tw1 = last_bytes 100 (buf ++ p1)
  /\ (exists front, buf ++ p1 = front ++ buffer tw1)
  /\ len (buffer tw1) = Z.min (len (buf ++ p1)) 100
  /\ (forall m : Method, exists p,
        Recorder.calls (w (fst (call tw m)))
        = Recorder.calls r ++ [forwarded ts (buf ++ p)]).
Proof.
  intros tw tw1 tw2.
  assert (Hb1 : buffer tw1 = last_bytes 100 (buf ++ p1))
    by (subst tw1; rewrite Write_buffer; reflexivity).
  split; [| split; [exact Hb1 | split; [| split]]].
  - subst tw2. rewrite Write_downstream, Recorder_write. cbn [fst Recorder.calls].
    subst tw1. rewrite Write_transformations, Write_downstream, Recorder_write.
    cbn [fst Recorder.calls w transformations buffer tw].
    rewrite <- app_assoc. reflexivity.
  - rewrite Hb1. eexists. apply last_bytes_suffix.
  - rewrite Hb1. apply len_last_bytes.
  - intros [p]. exists p. cbn [call].
    rewrite Write_downstream, Recorder_write. reflexivity.
Qed.

(** C10: a [Write] that succeeds completely (the downstream writer takes
    every byte and returns no error) can return a count other than
    [len(chunk)]: on a fresh writer, a chunk of 1 to 99 bytes that no rule
    changes gives 0; and with the rule black -> b the chunk "black" gives
    -4. *)
Theorem Write_count_is_not_chunk_length :
  (forall (R W : Type) (E : Regexp R) (D : Writer W)
          (w0 w1 : W) (ts : list (Transformation R)) (p : list byte),
      0 < len p < 100 ->
      applyTransformations (string_of_list_byte p) ts = string_of_list_byte p ->
      write w0 p = (w1, (len p, None)) ->
      snd (Write (newTransformWriter w0 ts) p) = (0, None) /\ 0 <> len p)
  /\ (let tw := newTransformWriter (bytes "") [rule "black" "b"] in
      Write tw (bytes "black")
      = ({| w := bytes "b"; transformations := [rule "black" "b"];
            buffer := bytes "black" |}, (-4, None))
      /\ write (w tw) (bytes "b") = (bytes "b", (len (bytes "b"), None))).
Proof.
  split.
  - intros R W E D w0 w1 ts p Hlen Hsame Hdown.
    split; [| lia].
    rewrite Write_eq. cbn [newTransformWriter buffer w transformations app snd].
    unfold forwarded. rewrite Hsame, list_byte_of_string_of_list_byte, Hdown.
    cbn [fst snd]. rewrite last_bytes_short by (unfold len in Hlen; lia).
    rewrite int_sub_exact by (unfold int_min, int_max; lia).
    f_equal. lia.
  - vm_compute. split; reflexivity.
Qed.

Lemma Write_count_is_not_chunk_length_witness :
  snd (Write (newTransformWriter (bytes "") [rule "red" "green"]) (bytes "black"))
  = (0, None)
  /\ 0 <> len (bytes "black").
Proof.
  apply (proj1 Write_count_is_not_chunk_length
           LiteralRegexp.t Buffer.t _ _ (bytes "") (bytes "black")).
  - vm_compute. split; reflexivity.
  - vm_compute. reflexivity.
  - vm_compute. reflexivity.
Defined.

Lemma Write_single_call_witness :
  0 <= 34 <= int_max
  /\ fst (snd (Write {| w := Recorder.accepting; transformations := blackwhite;
                        buffer := [] |} chunk1))
     = 34 - 32.
Proof.
  pose proof (Write_single_call blackwhite Recorder.accepting [] chunk1) as HS.
  cbv zeta in HS. destruct HS as (_ & _ & _ & _ & _ & Hexact).
  split; [vm_compute; split; discriminate |].
  rewrite Hexact.
  - vm_compute. reflexivity.
  - vm_compute. split; discriminate.
Defined.

(** ** Streaming against one-shot transformation *)

(** With no rules, two calls on a fresh writer over a [bytes.Buffer] leave
    the first chunk, then its retained tail once more, then the second
    chunk. *)
Lemma two_chunks_no_rules {R : Type} `{Regexp R} (p1 p2 : list byte) :
  w (fst (WriteAll (newTransformWriter (W := Buffer.t) [] (@nil (Transformation R)))
                   [p1; p2]))
  = p1 ++ last_bytes 100 p1 ++ p2.
Proof.
  cbn [WriteAll].
  rewrite (Write_eq (newTransformWriter _ _) p1).
  cbn [newTransformWriter buffer w transformations app fst snd].
  rewrite Write_eq.
  cbn [buffer w transformations fst snd].
  rewrite !forwarded_no_rules. reflexivity.
Qed.

(** C1: the rules black -> white, red -> green and the input
    "The black cat" cut into "The bla" and "ck cat". Applied once to the
    whole input the rules give "The white cat"; streamed, the downstream
    buffer holds "The blaThe white cat", and no bytes appended by a later
    flush can make the two equal. *)
Theorem split_invariance_broken :
  let tw := newTransformWriter (W := Buffer.t) [] blackwhite in
  let streamed := w (fst (WriteAll tw [bytes "The bla"; bytes "ck cat"])) in
  let whole := applyTransformations "The black cat" blackwhite in
  streamed = bytes "The blaThe white cat"
  /\ whole = "The white cat"%string
  /\ forall flushed : list byte, streamed ++ flushed <> bytes whole.
Proof.
  split; [| split].
  - vm_compute. reflexivity.
  - vm_compute. reflexivity.
  - intros flushed Heq. vm_compute in Heq. discriminate Heq.
Qed.

(** C3: the two chunks of the package's test written through one writer.
    The first call forwards "The white cat is on the green mat."; the second
    forwards the first line again in front of
    "The green cat is on the white mat.", not that line alone. *)
Theorem second_write_repeats_first_line :
  let tw := newTransformWriter Recorder.accepting blackwhite in
  let outputs :=
    map string_of_list_byte
        (Recorder.calls (w (fst (WriteAll tw [chunk1; chunk2])))) in
  outputs
  = ["The white cat is on the green mat.";
     "The white cat is on the green mat.The green cat is on the white mat."]%string
  /\ nth 1 outputs EmptyString <> "The green cat is on the white mat."%string.
Proof.
  split.
  - vm_compute. reflexivity.
  - vm_compute. discriminate.
Qed.

(** C4: no rules, input "ab" written as "a" then "b": the downstream
    buffer holds "aab". In general the retained tail of the first chunk is
    delivered a second time. *)
Theorem identity_broken_by_chunking :
  (forall p1 p2 : list byte,
      w (fst (WriteAll (newTransformWriter (W := Buffer.t) []
                          (@nil (Transformation LiteralRegexp.t)))
                       [p1; p2]))
      = p1 ++ last_bytes 100 p1 ++ p2)
  /\ w (fst (WriteAll (newTransformWriter (W := Buffer.t) []
                         (@nil (Transformation LiteralRegexp.t)))
                      [bytes "a"; bytes "b"]))
     = bytes "aab"
  /\ bytes "aab" <> bytes "a" ++ bytes "b".
Proof.
  split; [| split].
  - intros p1 p2. apply two_chunks_no_rules.
  - vm_compute. reflexivity.
  - vm_compute. discriminate.
Qed.

(** ** The literal engine replaces leftmost non-overlapping matches *)

Section LiteralFacts.

Variables pat rep : list byte.

Lemma is_prefix_app (v : list byte) : is_prefix pat (pat ++ v) = true.
Proof.
  induction pat as [| a pat' IH]; simpl; [reflexivity |].
  rewrite Byte.byte_dec_lb by reflexivity. exact IH.
Qed.

Lemma is_prefix_true (s : list byte) :
  is_prefix pat s = true -> exists v, s = pat ++ v.
Proof.
  revert s. induction pat as [| a pat' IH]; intros s Hp.
  - exists s. reflexivity.
  - destruct s as [| b s']; simpl in Hp; [discriminate |].
    apply andb_prop in Hp. destruct Hp as [Hab Hrest].
    apply Byte.byte_dec_bl in Hab. subst b.
    destruct (IH s' Hrest) as [v ->]. exists v. reflexivity.
Qed.

Lemma replaceFrom_skip (s : list byte) (k : nat) :
  replaceFrom pat rep k s = replaceFrom pat rep 0 (skipn k s).
Proof.
  revert k. induction s as [| c s' IH]; intros k.
  - destruct k; reflexivity.
  - destruct k as [| k]; [reflexivity |].
    simpl. apply IH.
Qed.

Lemma replaceFrom_nomatch (c : byte) (s : list byte) :
  is_prefix pat (c :: s) = false ->
  replaceFrom pat rep 0 (c :: s) = c :: replaceFrom pat rep 0 s.
Proof. intros Hp. cbn [replaceFrom]. rewrite Hp. reflexivity. Qed.

Hypothesis pat_nonempty : pat <> [].

Lemma replaceFrom_match (v : list byte) :
  replaceFrom pat rep 0 (pat ++ v) = rep ++ replaceFrom pat rep 0 v.
Proof.
  destruct pat as [| a pat'] eqn:Epat; [contradiction |].
  rewrite <- Epat.
  assert (Hcons : pat ++ v = a :: (pat' ++ v)) by (rewrite Epat; reflexivity).
  rewrite Hcons. cbn [replaceFrom]. rewrite <- Hcons, is_prefix_app.
  f_equal. rewrite replaceFrom_skip. f_equal.
  replace (List.length pat - 1)%nat with (List.length pat')
    by (rewrite Epat; simpl; lia).
  rewrite skipn_app, skipn_all, Nat.sub_diag. reflexivity.
Qed.

Lemma no_match_in_empty (u v : list byte) : [] <> u ++ pat ++ v.
Proof.
  intros Heq. symmetry in Heq.
  apply app_eq_nil in Heq. destruct Heq as [_ Heq].
  apply app_eq_nil in Heq. destruct Heq as [Heq _]. contradiction.
Qed.

Lemma ReplacedAll_cons (c : byte) (s out : list byte) :
  is_prefix pat (c :: s) = false ->
  ReplacedAll pat rep s out ->
  ReplacedAll pat rep (c :: s) (c :: out).
Proof.
  intros Hp Hrel.
  assert (Hfront : forall u v, c :: s = u ++ pat ++ v ->
                               exists u', u = c :: u' /\ s = u' ++ pat ++ v).
  { intros u v Heq. destruct u as [| c' u'].
    - simpl in Heq. rewrite Heq, is_prefix_app in Hp. discriminate.
    - simpl in Heq. injection Heq as -> Hs. exists u'. split; [reflexivity | exact Hs]. }
  inversion Hrel as [s0 Hnone | u v out' Hleft Hrest]; subst.
  - apply RA_none. intros u v Heq.
    destruct (Hfront u v Heq) as (u' & _ & Hs). exact (Hnone u' v Hs).
  - change (ReplacedAll pat rep ((c :: u) ++ pat ++ v) ((c :: u) ++ rep ++ out')).
    apply RA_first; [| exact Hrest].
    intros u1 v1 Heq. destruct (Hfront u1 v1 Heq) as (u' & -> & Hs).
    simpl. apply le_n_S. exact (Hleft u' v1 Hs).
Qed.

Lemma replaceFrom_ReplacedAll (s : list byte) :
  ReplacedAll pat rep s (replaceFrom pat rep 0 s).
Proof.
  remember (List.length s) as n eqn:Hn.
  revert s Hn. induction n as [n IH] using lt_wf_ind. intros s Hn.
  destruct s as [| c s'].
  - simpl. apply RA_none. apply no_match_in_empty.
  - destruct (is_prefix pat (c :: s')) eqn:Hp.
    + destruct (is_prefix_true _ Hp) as [v Hv]. rewrite Hv.
      rewrite replaceFrom_match.
      apply (RA_first pat rep [] v).
      * intros u' v' _. simpl. apply Nat.le_0_l.
      * apply (IH (List.length v)); [| reflexivity].
        subst n. rewrite Hv, length_app.
        destruct pat; [contradiction | simpl; lia].
    + rewrite replaceFrom_nomatch by exact Hp.
      apply ReplacedAll_cons; [exact Hp |].
      apply (IH (List.length s')); [subst n; simpl; lia | reflexivity].
Qed.

Lemma replaceAll_ReplacedAll (s : list byte) :
  ReplacedAll pat rep s (replaceAll pat rep s).
Proof.
  unfold replaceAll. apply replaceFrom_ReplacedAll.
Qed.

Lemma app_same_length (u u' x y : list byte) :
  List.length u = List.length u' -> u ++ x = u' ++ y -> u = u' /\ x = y.
Proof.
  revert u'. induction u as [| a u IH]; intros [| b u'] Hlen Heq;
    simpl in *; try discriminate.
  - split; [reflexivity | exact Heq].
  - injection Heq as -> Heq. injection Hlen as Hlen.
    destruct (IH u' Hlen Heq) as [-> ->]. split; reflexivity.
Qed.

Lemma ReplacedAll_functional (s out1 out2 : list byte) :
  ReplacedAll pat rep s out1 -> ReplacedAll pat rep s out2 -> out1 = out2.
Proof.
  intros H1. revert out2.
  induction H1 as [s Hnone | u v out Hleft Hrest IH]; intros out2 H2.
  - inversion H2 as [s0 Hnone2 | u2 v2 out' Hleft2 Hrest2 Heq]; subst.
    + reflexivity.
    + exfalso. exact (Hnone u2 v2 eq_refl).
  - inversion H2 as [s0 Hnone2 | u2 v2 out' Hleft2 Hrest2 Heq]; subst.
    + exfalso. exact (Hnone2 u v eq_refl).
    + assert (Hlen : List.length u2 = List.length u).
      { apply Nat.le_antisymm.
        - apply (Hleft2 u v). exact Heq.
        - apply (Hleft u2 v2). symmetry. exact Heq. }
      destruct (app_same_length _ _ _ _ Hlen Heq) as [-> Hv].
      apply app_inv_head in Hv. subst v2.
      rewrite (IH out' Hrest2). reflexivity.
Qed.

End LiteralFacts.

(** ** applyTransformations *)

Lemma applyTransformations_app {R : Type} `{Regexp R}
    (s : string) (ts1 ts2 : list (Transformation R)) :
  applyTransformations s (ts1 ++ ts2)
  = applyTransformations (applyTransformations s ts1) ts2.
Proof. unfold applyTransformations. apply fold_left_app. Qed.

Lemma bytes_inj (s1 s2 : string) : bytes s1 = bytes s2 -> s1 = s2.
Proof.
  unfold bytes. intros Heq.
  rewrite <- (string_of_list_byte_of_string s1),
          <- (string_of_list_byte_of_string s2), Heq.
  reflexivity.
Qed.

Lemma literal_ReplaceAllString (pat src repl : string) :
  bytes (ReplaceAllString (Lit pat) src repl)
  = replaceAll (bytes pat) (bytes repl) (bytes src).
Proof.
  unfold bytes. cbn [ReplaceAllString engine].
  apply list_byte_of_string_of_list_byte.
Qed.

Lemma applyTransformations_AppliedInOrder
    (ts : list (Transformation LiteralRegexp.t)) (s : string) :
  Forall nonempty_pattern ts ->
  AppliedInOrder ts s (applyTransformations s ts).
Proof.
  intros Hne. revert s.
  induction Hne as [| [[pat] repl] ts Hpat _ IH]; intros s.
  - apply AIO_nil.
  - change (applyTransformations s ({| Pattern := Lit pat; Replacement := repl |} :: ts))
      with (applyTransformations (ReplaceAllString (Lit pat) s repl) ts).
    apply (AIO_cons pat repl ts s (ReplaceAllString (Lit pat) s repl)); [| apply IH].
    rewrite literal_ReplaceAllString.
    apply replaceAll_ReplacedAll.
    intros Hempty. apply Hpat. cbn [Pattern]. f_equal.
    apply bytes_inj. exact Hempty.
Qed.

Lemma AppliedInOrder_functional
    (ts : list (Transformation LiteralRegexp.t)) (s out1 out2 : string) :
  AppliedInOrder ts s out1 -> AppliedInOrder ts s out2 -> out1 = out2.
Proof.
  intros H1. revert out2.
  induction H1 as [s | pat repl ts s s1 out Hrule _ IH]; intros out2 H2.
  - inversion H2. reflexivity.
  - inversion H2 as [| pat' repl' ts' s' s2 out' Hrule' Hrest']; subst.
    assert (Hs : s2 = s1).
    { apply bytes_inj. exact (ReplacedAll_functional _ _ _ _ _ Hrule' Hrule). }
    subst s2. apply IH. exact Hrest'.
Qed.

Lemma literal_text_nonempty (pat : string) :
  literal_text pat = true -> bytes pat <> [].
Proof.
  unfold literal_text. intros Hlit Hempty. rewrite Hempty in Hlit.
  discriminate Hlit.
Qed.

Lemma literal_pattern_nonempty (t : Transformation LiteralRegexp.t) :
  literal_pattern t -> nonempty_pattern t.
Proof.
  destruct t as [[pat] repl]. unfold literal_pattern, nonempty_pattern.
  cbn [Pattern]. intros Hlit Hempty. injection Hempty as ->.
  vm_compute in Hlit. discriminate Hlit.
Qed.

Lemma literal_rules_nonempty (ts : list (Transformation LiteralRegexp.t)) :
  Forall literal_rule ts -> Forall nonempty_pattern ts.
Proof.
  intros Hall. induction Hall as [| t ts [Hpat _] _ IH]; constructor;
    [apply literal_pattern_nonempty; exact Hpat | exact IH].
Qed.



(** ** CloseStreams and CopyToPipe *)

Section ConfigFacts.

Context {R : Type} `{Regexp R}.
Context {RC WC B : Type} `{Closer RC} `{Broadcaster B}.
Variable Errorf : string -> error.

Lemma collect_failure (name : string) (res : option error)
    (errors : list string) :
  collect name res errors = errors ++ failure name res.
Proof.
  destruct res; simpl; [reflexivity | rewrite app_nil_r; reflexivity].
Qed.

Lemma len_positive {A : Type} (s : list A) :
  (len s >? 0) = match s with [] => false | _ :: _ => true end.
Proof. destruct s; reflexivity. Qed.

Lemma spawned_app (e1 e2 : list (Effect R RC WC B)) :
  spawned (e1 ++ e2) = spawned e1 ++ spawned e2.
Proof.
  induction e1 as [| [d | g] e1 IH]; simpl; [reflexivity | exact IH |].
  rewrite IH. reflexivity.
Qed.

Lemma wg_after_app (n : Z) (e1 e2 : list (Effect R RC WC B)) :
  wg_after n (e1 ++ e2) = wg_after (wg_after n e1) e2.
Proof.
  revert n. induction e1 as [| [d | g] e1 IH]; intros n; simpl;
    [reflexivity | apply IH | apply IH].
Qed.

(** The counter moves by one for each copy task, and by nothing for the
    stdin task. *)
Lemma CopyToPipe_counter (c : Config RC WC B) (iop : DirectIO RC WC) :
  wg (fst (CopyToPipe c iop))
  = wg c + len (filter is_copyTask (spawned (snd (CopyToPipe c iop)))).
Proof.
  unfold CopyToPipe, CopyToPipe_effects. cbn [fst snd wg].
  destruct (dio_Stdout iop), (dio_Stderr iop), (Stdin c) as [src |];
    try destruct (dio_Stdin iop); unfold copyFunc, len; simpl; lia.
Qed.

Lemma CopyToPipe_copy_tasks (c : Config RC WC B) (iop : DirectIO RC WC)
    (tw : TransformWriter R B) (r : RC) :
  In (copyTask tw r) (spawned (snd (CopyToPipe c iop))) ->
  (tw = newTransformWriter (Stdout c) stdoutTransforms
   /\ dio_Stdout iop = Some r)
  \/ (tw = newTransformWriter (Stderr c) stderrTransforms
      /\ dio_Stderr iop = Some r).
Proof.
  unfold CopyToPipe, CopyToPipe_effects. cbn [snd].
  rewrite !spawned_app. intros Hin.
  apply in_app_or in Hin. destruct Hin as [Hin | Hin].
  - left. destruct (dio_Stdout iop) as [r0 |]; simpl in Hin; [| contradiction].
    destruct Hin as [Heq | []]. injection Heq as <- <-. split; reflexivity.
  - apply in_app_or in Hin. destruct Hin as [Hin | Hin].
    + right. destruct (dio_Stderr iop) as [r0 |]; simpl in Hin; [| contradiction].
      destruct Hin as [Heq | []]. injection Heq as <- <-. split; reflexivity.
    + destruct (Stdin c); [| contradiction].
      destruct (dio_Stdin iop); simpl in Hin; [| contradiction].
      destruct Hin as [Heq | []]. discriminate Heq.
Qed.

Lemma CopyToPipe_rules (c : Config RC WC B) (iop : DirectIO RC WC) :
  rules_applied stdoutTransforms stderrTransforms c iop.
Proof.
  unfold rules_applied, CopyToPipe, CopyToPipe_effects. cbn [snd].
  split; intros r Hr; rewrite Hr, !spawned_app.
  - apply in_or_app. left. simpl. left. reflexivity.
  - apply in_or_app. right. apply in_or_app. left. simpl. left. reflexivity.
Qed.

Lemma copy_task_counted (c : Config RC WC B) (iop : DirectIO RC WC)
    (tw : TransformWriter R B) (r : RC) :
  In (copyTask tw r) (spawned (snd (CopyToPipe c iop))) ->
  counted (snd (CopyToPipe c iop)) (copyTask tw r).
Proof.
  intros Hin. split.
  - destruct (CopyToPipe_copy_tasks c iop tw r Hin) as [[-> Hr] | [-> Hr]];
      unfold CopyToPipe, CopyToPipe_effects; cbn [snd]; rewrite Hr.
    + exists []. eexists. reflexivity.
    + exists (match dio_Stdout iop with
              | Some r0 => copyFunc (Stdout c) r0 stdoutTransforms
              | None => []
              end).
      eexists. reflexivity.
  - intros copy_err close_err. cbn [after_copy].
    apply in_or_app. right. simpl. right. left. reflexivity.
Qed.

End ConfigFacts.

Section CopyToPipeClaims.

Context {R : Type} `{Regexp R} {RC WC B : Type}.

(** C7 (amended): the copy tasks of stdout and stderr are counted: the
    wait group is incremented right before each of them is started, and
    each calls [Done] as its last step once its copy has returned, with
    an error or without. The counter moves by the number of these tasks.
    The stdin task, started when the configuration has a stdin reader and
    the source a stdin, is not registered and never calls [Done]. *)
Theorem copy_tasks_counted_stdin_task_not
    (c : Config RC WC B) (iop : DirectIO RC WC) :
  let effs := snd (CopyToPipe (R := R) c iop) in
  (forall tw r, In (copyTask tw r) (spawned effs) ->
                counted effs (copyTask tw r))
  /\ (forall (tw : TransformWriter R B) (r : RC) copy_err close_err,
        exists steps : list (Step RC WC),
          after_copy (copyTask tw r) copy_err close_err = steps ++ [WgDone]
          /\ ~ In WgDone steps)
  /\ wg (fst (CopyToPipe (R := R) c iop))
     = wg c + len (filter is_copyTask (spawned effs))
  /\ (forall src dst, Stdin c = Some src -> dio_Stdin iop = Some dst ->
        In (stdinTask dst src) (spawned effs))
  /\ (forall (dst : WC) (src : RC) copy_err close_err,
        ~ In (WgDone (RC := RC) (WC := WC))
             (after_copy (R := R) (B := B) (stdinTask dst src)
                         copy_err close_err)).
Proof.
  intros effs. subst effs.
  split; [| split; [| split; [| split]]].
  - intros tw r. apply copy_task_counted.
  - intros tw r copy_err close_err. cbn [after_copy].
    exists (match copy_err with Some err => [LogErrorf err] | None => [] end
            ++ [CloseReader r]).
    split.
    + rewrite <- app_assoc. reflexivity.
    + intros Hin. apply in_app_or in Hin.
      destruct copy_err; simpl in Hin;
        repeat match goal with
               | Hd : _ \/ _ |- _ => destruct Hd as [Hd | Hd]
               end; try discriminate; assumption.
  - apply CopyToPipe_counter.
  - intros src dst Hsrc Hdst.
    unfold CopyToPipe, CopyToPipe_effects. cbn [snd].
    rewrite Hsrc, Hdst, !spawned_app.
    apply in_or_app. right. apply in_or_app. right. simpl. left. reflexivity.
  - intros dst src copy_err close_err Hin. cbn [after_copy] in Hin.
    destruct close_err; simpl in Hin;
      repeat match goal with
             | Hd : _ \/ _ |- _ => destruct Hd as [Hd | Hd]
             end; try discriminate; assumption.
Qed.

(** C8 (amended): the rule lists are fixed inside [CopyToPipe], which
    takes none from its caller: whatever the configuration and the source,
    the stdout task runs with the one rule [{black}] -> [{white}] over the
    stdout broadcaster and the stderr task with the one rule
    [{red}] -> [{grn}] over the stderr broadcaster, each with an empty
    buffer, and there is no other copy task. *)
Theorem CopyToPipe_rules_are_fixed
    (c : Config RC WC B) (iop : DirectIO RC WC) :
  let black_white :=
    [ {| Pattern := MustCompile "{black}"; Replacement := "{white}" |} ] in
  let red_grn :=
    [ {| Pattern := MustCompile "{red}"; Replacement := "{grn}" |} ] in
  rules_applied (R := R) black_white red_grn c iop
  /\ forall tw r,
       In (copyTask tw r) (spawned (snd (CopyToPipe (R := R) c iop))) ->
       (tw = {| w := stdout c; transformations := black_white; buffer := [] |}
        /\ dio_Stdout iop = Some r)
       \/ (tw = {| w := stderr c; transformations := red_grn; buffer := [] |}
           /\ dio_Stderr iop = Some r).
Proof.
  intros black_white red_grn. split.
  - apply CopyToPipe_rules.
  - intros tw r. apply CopyToPipe_copy_tasks.
Qed.

End CopyToPipeClaims.

Lemma copy_tasks_counted_stdin_task_not_witness :
  counted (snd (CopyToPipe (R := LiteralRegexp.t) config0 iop0))
          (copyTask (newTransformWriter "stdout broadcaster"%string stdoutTransforms)
                    "process stdout"%string).
Proof.
  apply (proj1 (copy_tasks_counted_stdin_task_not (R := LiteralRegexp.t)
                  config0 iop0)).
  simpl. left. reflexivity.
Defined.

(** C7 as stated fails: with a stdin reader in the configuration and a
    stdin on the source, the stdin task is started without being counted. *)
Lemma stdin_task_is_not_counted :
  ~ every_task_counted (R := LiteralRegexp.t) config0 iop0.
Proof.
  intros Hall.
  destruct (Hall (stdinTask "process stdin"%string "stdin pipe reader"%string))
    as [_ Hdone].
  - simpl. right. right. left. reflexivity.
  - specialize (Hdone None None). simpl in Hdone.
    destruct Hdone as [Hd | []]. discriminate Hd.
Qed.

Lemma CopyToPipe_rules_are_fixed_witness :
  (newTransformWriter (R := LiteralRegexp.t) "stderr broadcaster"%string
                      stderrTransforms
   = {| w := stdout config0;
        transformations := [rule "{black}" "{white}"]; buffer := [] |}
   /\ dio_Stdout iop0 = Some "process stderr"%string)
  \/ (newTransformWriter (R := LiteralRegexp.t) "stderr broadcaster"%string
                         stderrTransforms
      = {| w := stderr config0;
           transformations := [rule "{red}" "{grn}"]; buffer := [] |}
      /\ dio_Stderr iop0 = Some "process stderr"%string).
Proof.
  apply (proj2 (CopyToPipe_rules_are_fixed (R := LiteralRegexp.t) config0 iop0)).
  simpl. right. left. reflexivity.
Defined.

(** C8 as stated fails: a caller who wants no rule on either stream still
    gets the built-in rule on stdout. *)
Lemma caller_rules_are_ignored :
  ~ (forall outRules errRules : list (Transformation LiteralRegexp.t),
       rules_applied outRules errRules config0 iop0).
Proof.
  intros Hall.
  destruct (Hall [] []) as [Hout _].
  specialize (Hout "process stdout"%string eq_refl). simpl in Hout.
  destruct Hout as [Hd | [Hd | [Hd | []]]]; discriminate Hd.
Qed.

(** ** Runs of Write *)

Lemma last_bytes_absorb (s p : list byte) :
  last_bytes 100 (last_bytes 100 s ++ p) = last_bytes 100 (s ++ p).
Proof.
  destruct (Nat.le_gt_cases (List.length s) 100) as [Hshort | Hlong].
  - rewrite (last_bytes_short 100 s Hshort). reflexivity.
  - rewrite (last_bytes_suffix 100 s) at 2.
    set (l := last_bytes 100 s).
    assert (Hl : List.length l = 100%nat)
      by (subst l; rewrite last_bytes_length; lia).
    set (f := firstn (List.length s - 100) s).
    unfold last_bytes. rewrite <- app_assoc, !length_app, Hl.
    rewrite (skipn_app _ f).
    rewrite (skipn_all2 f) by lia. simpl. f_equal. lia.
Qed.

Section RunFacts.

Context {R W : Type} `{Regexp R} `{Writer W}.

Lemma WriteAll_cons (tw : TransformWriter R W) (p : list byte)
    (rest : list (list byte)) :
  WriteAll tw (p :: rest)
  = (fst (WriteAll (fst (Write tw p)) rest),
     snd (Write tw p) :: snd (WriteAll (fst (Write tw p)) rest)).
Proof.
  cbn [WriteAll]. destruct (Write tw p) as [tw' r]. cbn [fst snd].
  destruct (WriteAll tw' rest) as [tw'' rs]. reflexivity.
Qed.

Lemma WriteAll_transformations (tw : TransformWriter R W)
    (chunks : list (list byte)) :
  transformations (fst (WriteAll tw chunks)) = transformations tw.
Proof.
  revert tw. induction chunks as [| p rest IH]; intros tw; [reflexivity |].
  rewrite WriteAll_cons. cbn [fst]. rewrite IH. apply Write_transformations.
Qed.

Lemma WriteAll_buffer (tw : TransformWriter R W) (chunks : list (list byte)) :
  len (buffer tw) <= 100 ->
  buffer (fst (WriteAll tw chunks))
  = last_bytes 100 (buffer tw ++ List.concat chunks).
Proof.
  revert tw. induction chunks as [| p rest IH]; intros tw Hb.
  - simpl. rewrite app_nil_r. symmetry. apply last_bytes_short.
    unfold len in Hb. lia.
  - rewrite WriteAll_cons. cbn [fst List.concat].
    rewrite IH by apply Write_buffer_bounded.
    rewrite Write_buffer, last_bytes_absorb, app_assoc. reflexivity.
Qed.

Lemma WriteAll_results (tw : TransformWriter R W) (chunks : list (list byte)) :
  List.length (snd (WriteAll tw chunks)) = List.length chunks.
Proof.
  revert tw. induction chunks as [| p rest IH]; intros tw; [reflexivity |].
  rewrite WriteAll_cons. cbn [snd List.length]. rewrite IH. reflexivity.
Qed.

End RunFacts.

Lemma payloads_length (buf : list byte) (chunks : list (list byte)) :
  List.length (payloads buf chunks) = List.length chunks.
Proof.
  revert buf. induction chunks as [| p rest IH]; intros buf; simpl;
    [reflexivity | rewrite IH; reflexivity].
Qed.

Lemma payloads_app (buf : list byte) (a b : list (list byte)) :
  (List.length buf <= 100)%nat ->
  payloads buf (a ++ b)
  = payloads buf a ++ payloads (last_bytes 100 (buf ++ List.concat a)) b.
Proof.
  revert buf. induction a as [| p rest IH]; intros buf Hb.
  - simpl. rewrite app_nil_r, last_bytes_short by exact Hb. reflexivity.
  - cbn [payloads app List.concat]. rewrite IH.
    + rewrite last_bytes_absorb, app_assoc. reflexivity.
    + rewrite last_bytes_length. lia.
Qed.

Lemma WriteAll_calls {R : Type} `{Regexp R}
    (tw : TransformWriter R Recorder.t) (chunks : list (list byte)) :
  Recorder.calls (w (fst (WriteAll tw chunks)))
  = Recorder.calls (w tw)
    ++ map (forwarded (transformations tw)) (payloads (buffer tw) chunks).
Proof.
  revert tw. induction chunks as [| p rest IH]; intros tw.
  - simpl. rewrite app_nil_r. reflexivity.
  - rewrite WriteAll_cons. cbn [fst]. rewrite IH.
    rewrite Write_transformations, Write_buffer, Write_downstream, Recorder_write.
    cbn [fst Recorder.calls payloads map]. rewrite <- app_assoc. reflexivity.
Qed.

(** X1: whatever is written, in whatever chunks, the retained buffer after
    the run is the last 100 bytes (or all, when there are fewer) of the
    bytes held before followed by everything written; it never exceeds 100
    bytes. *)
Theorem WriteAll_retains_tail {R W : Type} `{Regexp R} `{Writer W}
    (tw : TransformWriter R W) (chunks : list (list byte)) :
  len (buffer tw) <= maxTransformLength ->
  buffer (fst (WriteAll tw chunks))
  = last_bytes 100 (buffer tw ++ List.concat chunks)
  /\ len (buffer (fst (WriteAll tw chunks)))
     = Z.min (len (buffer tw ++ List.concat chunks)) maxTransformLength.
Proof.
  unfold maxTransformLength. intros Hb.
  rewrite WriteAll_buffer by exact Hb.
  split; [reflexivity | apply len_last_bytes].
Qed.

Lemma WriteAll_retains_tail_witness :
  buffer (fst (WriteAll (newTransformWriter Recorder.accepting blackwhite)
                        [chunk1; chunk2]))
  = last_bytes 100 ([] ++ List.concat [chunk1; chunk2])
  /\ len (buffer (fst (WriteAll (newTransformWriter Recorder.accepting blackwhite)
                                [chunk1; chunk2])))
     = Z.min (len ([] ++ List.concat [chunk1; chunk2])) maxTransformLength.
Proof.
  apply (WriteAll_retains_tail
           (newTransformWriter Recorder.accepting blackwhite) [chunk1; chunk2]).
  vm_compute. discriminate.
Defined.

(** X2: a run of [Write] calls makes exactly one downstream call per chunk,
    in order, each with the transform of that call's working sequence, and
    returns one result per chunk; the rules of the writer never change. *)
Theorem WriteAll_one_call_per_chunk {R : Type} `{Regexp R}
    (tw : TransformWriter R Recorder.t) (chunks : list (list byte)) :
  Recorder.calls (w (fst (WriteAll tw chunks)))
  = Recorder.calls (w tw)
    ++ map (forwarded (transformations tw)) (payloads (buffer tw) chunks)
  /\ List.length (Recorder.calls (w (fst (WriteAll tw chunks))))
     = (List.length (Recorder.calls (w tw)) + List.length chunks)%nat
  /\ List.length (snd (WriteAll tw chunks)) = List.length chunks
  /\ transformations (fst (WriteAll tw chunks)) = transformations tw.
Proof.
  split; [apply WriteAll_calls | split; [| split]].
  - rewrite WriteAll_calls, length_app, length_map, payloads_length. reflexivity.
  - apply WriteAll_results.
  - apply WriteAll_transformations.
Qed.

(** X3: on a fresh writer, as long as what was written before fits in the
    lookback (at most 100 bytes), a [Write] forwards the rules applied once
    to the whole input so far, the new chunk included. *)
Theorem last_write_is_one_shot {R : Type} `{Regexp R}
    (ts : list (Transformation R)) (r : Recorder.t)
    (init : list (list byte)) (p : list byte) :
  len (List.concat init) <= maxTransformLength ->
  Recorder.calls (w (fst (WriteAll (newTransformWriter r ts) (init ++ [p]))))
  = Recorder.calls r
    ++ map (forwarded ts) (payloads [] init)
    ++ [list_byte_of_string
          (applyTransformations
             (string_of_list_byte (List.concat (init ++ [p]))) ts)].
Proof.
  unfold maxTransformLength, len. intros Hfit.
  rewrite WriteAll_calls. cbn [newTransformWriter w transformations buffer].
  rewrite payloads_app by (simpl; lia).
  rewrite map_app. cbn [app payloads map].
  rewrite last_bytes_short by lia.
  rewrite List.concat_app. cbn [List.concat]. rewrite app_nil_r. reflexivity.
Qed.

Lemma last_write_is_one_shot_witness :
  Recorder.calls
    (w (fst (WriteAll (newTransformWriter Recorder.accepting blackwhite)
                      ([bytes "The bla"] ++ [bytes "ck cat"]))))
  = Recorder.calls Recorder.accepting
    ++ map (forwarded blackwhite) (payloads [] [bytes "The bla"])
    ++ [list_byte_of_string
          (applyTransformations
             (string_of_list_byte (List.concat ([bytes "The bla"] ++ [bytes "ck cat"])))
             blackwhite)].
Proof.
  apply (last_write_is_one_shot blackwhite Recorder.accepting
           [bytes "The bla"] (bytes "ck cat")).
  vm_compute. discriminate.
Defined.

(** X4: writing an empty chunk is not a no-op: the retained buffer (at most
    100 bytes, as [Write] leaves it) stays as it is, and its transform is
    handed to the downstream writer once more; the count returned is the
    downstream count minus the length of the buffer. *)
Theorem Write_empty_chunk {R : Type} `{Regexp R}
    (ts : list (Transformation R)) (r : Recorder.t) (buf : list byte) :
  len buf <= maxTransformLength ->
  Write {| w := r; transformations := ts; buffer := buf |} []
  = ({| w := {| Recorder.calls := Recorder.calls r ++ [forwarded ts buf];
                Recorder.answer := Recorder.answer r |};
        transformations := ts; buffer := buf |},
     (int_sub (fst (Recorder.answer r (Recorder.calls r) (forwarded ts buf)))
              (len buf),
      snd (Recorder.answer r (Recorder.calls r) (forwarded ts buf)))).
Proof.
  unfold maxTransformLength, len. intros Hb.
  rewrite Write_eq. cbn [w transformations buffer].
  rewrite app_nil_r, Recorder_write. cbn [fst snd].
  rewrite last_bytes_short by lia. reflexivity.
Qed.

Lemma Write_empty_chunk_witness :
  Write {| w := Recorder.accepting; transformations := blackwhite;
           buffer := bytes "black" |} []
  = ({| w := {| Recorder.calls :=
                  Recorder.calls Recorder.accepting
                  ++ [forwarded blackwhite (bytes "black")];
                Recorder.answer := Recorder.answer Recorder.accepting |};
        transformations := blackwhite; buffer := bytes "black" |},
     (int_sub (fst (Recorder.answer Recorder.accepting
                      (Recorder.calls Recorder.accepting)
                      (forwarded blackwhite (bytes "black"))))
              (len (bytes "black")),
      snd (Recorder.answer Recorder.accepting
             (Recorder.calls Recorder.accepting)
             (forwarded blackwhite (bytes "black"))))).
Proof.
  apply (Write_empty_chunk blackwhite Recorder.accepting (bytes "black")).
  vm_compute. discriminate.
Defined.

(** X5: when the downstream writer takes everything and the rules leave
    the length of the working sequence unchanged, [Write] returns
    max(0, len(buffer) + len(p) - 100); that is [len(p)] only when the
    retained buffer is full (100 bytes) or the chunk is empty. *)
Theorem Write_count_when_length_kept {R W : Type} `{Regexp R} `{Writer W}
    (tw : TransformWriter R W) (p : list byte) (w1 : W) :
  len (buffer tw) <= maxTransformLength ->
  len (buffer tw ++ p) <= int_max ->
  len (forwarded (transformations tw) (buffer tw ++ p)) = len (buffer tw ++ p) ->
  write (w tw) (forwarded (transformations tw) (buffer tw ++ p))
  = (w1, (len (forwarded (transformations tw) (buffer tw ++ p)), None)) ->
  snd (Write tw p)
  = (Z.max 0 (len (buffer tw) + len p - maxTransformLength), None)
  /\ (fst (snd (Write tw p)) = len p
      <-> len (buffer tw) = maxTransformLength \/ len p = 0).
Proof.
  unfold maxTransformLength. intros Hb Hmax Hkept Hdown.
  assert (Hres : snd (Write tw p)
                 = (Z.max 0 (len (buffer tw) + len p - 100), None)).
  { rewrite Write_eq. cbv zeta. rewrite Hdown. cbn [fst snd].
    rewrite Hkept, len_last_bytes.
    pose proof (len_nonneg (buffer tw ++ p)) as Hnn.
    rewrite int_sub_exact by (unfold int_min, int_max in *; lia).
    rewrite len_app. f_equal. lia. }
  split; [exact Hres |].
  rewrite Hres. cbn [fst].
  pose proof (len_nonneg (buffer tw)). pose proof (len_nonneg p). lia.
Qed.

Lemma Write_count_when_length_kept_witness :
  snd (Write (newTransformWriter (bytes "") blackwhite) (bytes "black"))
  = (Z.max 0 (len (@nil byte) + len (bytes "black") - maxTransformLength), None)
  /\ (fst (snd (Write (newTransformWriter (bytes "") blackwhite) (bytes "black")))
      = len (bytes "black")
      <-> len (@nil byte) = maxTransformLength \/ len (bytes "black") = 0).
Proof.
  apply (Write_count_when_length_kept
           (newTransformWriter (W := Buffer.t) (bytes "") blackwhite)
           (bytes "black") (bytes "white")).
  - vm_compute. discriminate.
  - vm_compute. discriminate.
  - vm_compute. reflexivity.
  - vm_compute. reflexivity.
Defined.

(** X6: the slice expression of [Write] never goes out of range: the index
    max(0, len(payload) - maxTransformLength) lies between 0 and
    len(payload), the slice is a tail of the payload, and it holds at most
    [maxTransformLength] bytes. *)
Theorem retained_slice_in_range (payload : list byte) :
  let i := max 0 (len payload - maxTransformLength) in
  0 <= i <= len payload
  /\ payload = firstn (Z.to_nat i) payload ++ slice_from payload i
  /\ len (slice_from payload i) = len payload - i
  /\ len (slice_from payload i) <= maxTransformLength.
Proof.
  intros i. subst i. rewrite max_is_Zmax.
  unfold maxTransformLength, slice_from, len.
  repeat split; try lia.
  - symmetry. apply firstn_skipn.
  - rewrite length_skipn. lia.
  - rewrite length_skipn. lia.
Qed.

(** ** More on applyTransformations with literal rules *)

Section FirstMatch.

Variables pat rep : list byte.

Lemma first_match_none (s : list byte) :
  first_match pat s = None -> replaceAll pat rep s = s.
Proof.
  unfold replaceAll. intros Hnone.
  induction s as [| c s' IH]; [reflexivity |].
  cbn [first_match] in Hnone.
  destruct (is_prefix pat (c :: s')) eqn:Hp; [discriminate |].
  rewrite replaceFrom_nomatch by exact Hp. f_equal. apply IH.
  destruct (first_match pat s'); [discriminate | reflexivity].
Qed.

Lemma first_match_some (s : list byte) (i : nat) :
  pat <> [] ->
  first_match pat s = Some i ->
  replaceAll pat rep s
  = firstn i s ++ rep ++ replaceAll pat rep (skipn (i + List.length pat) s).
Proof.
  intros Hne. unfold replaceAll.
  revert i. induction s as [| c s' IH]; intros i Hsome.
  - cbn [first_match] in Hsome.
    destruct pat; [contradiction | discriminate].
  - cbn [first_match] in Hsome.
    destruct (is_prefix pat (c :: s')) eqn:Hp.
    + injection Hsome as <-.
      destruct (is_prefix_true _ _ Hp) as [v Hv]. rewrite Hv.
      rewrite replaceFrom_match by exact Hne.
      cbn [firstn app Nat.add].
      rewrite skipn_app, skipn_all, Nat.sub_diag. reflexivity.
    + destruct (first_match pat s') as [j |] eqn:Hj; [| discriminate].
      injection Hsome as <-.
      rewrite replaceFrom_nomatch by exact Hp.
      rewrite (IH j eq_refl). reflexivity.
Qed.

Lemma replaceAll_self : pat <> [] -> replaceAll pat rep pat = rep.
Proof.
  intros Hne.
  assert (Hall : replaceAll pat rep pat = replaceFrom pat rep 0 (pat ++ []))
    by (rewrite app_nil_r; reflexivity).
  rewrite Hall, replaceFrom_match by exact Hne.
  cbn [replaceFrom]. apply app_nil_r.
Qed.

Lemma ReplacedAll_same_length (s out : list byte) :
  List.length rep = List.length pat ->
  ReplacedAll pat rep s out -> List.length out = List.length s.
Proof.
  intros Hlen Hrel.
  induction Hrel as [s Hnone | u v out Hleft Hrest IH]; [reflexivity |].
  rewrite !length_app, IH, Hlen. reflexivity.
Qed.

End FirstMatch.

Lemma bytes_empty (s : string) : bytes s = [] -> s = EmptyString.
Proof. intros Hs. apply bytes_inj. exact Hs. Qed.

Lemma literal_step (pat repl : string)
    (ts : list (Transformation LiteralRegexp.t)) (s : string) :
  applyTransformations s (rule pat repl :: ts)
  = applyTransformations
      (string_of_list_byte (replaceAll (bytes pat) (bytes repl) (bytes s))) ts.
Proof. reflexivity. Qed.

Lemma forwarded_literal (pat repl : string) (x : list byte) :
  forwarded [rule pat repl] x = replaceAll (bytes pat) (bytes repl) x.
Proof.
  unfold forwarded. rewrite literal_step. cbn [applyTransformations fold_left].
  unfold bytes. rewrite !list_byte_of_string_of_list_byte. reflexivity.
Qed.

(** X7: applying a rule list made of two lists one after the other is
    applying the first list and then the second to its result. *)
Theorem applyTransformations_concatenated {R : Type} `{Regexp R}
    (s : string) (ts1 ts2 : list (Transformation R)) :
  applyTransformations s (ts1 ++ ts2)
  = applyTransformations (applyTransformations s ts1) ts2.
Proof. unfold applyTransformations. apply fold_left_app. Qed.

(** X8: with patterns of the literal fragment (printable ASCII, no
    metacharacter), a text in which none of the patterns occurs comes out
    of [applyTransformations] unchanged; the empty text is such a text. *)
Theorem applyTransformations_untouched
    (ts : list (Transformation LiteralRegexp.t)) (s : string) :
  Forall literal_pattern ts ->
  Forall (untouched_by s) ts -> applyTransformations s ts = s.
Proof.
  intros _ Hall.
  induction Hall as [| [[pat] repl] ts Hpat _ IH]; [reflexivity |].
  change {| Pattern := Lit pat; Replacement := repl |} with (rule pat repl).
  rewrite literal_step.
  unfold untouched_by in Hpat. cbn [Pattern] in Hpat.
  rewrite (first_match_none _ _ _ Hpat).
  unfold bytes. rewrite string_of_list_byte_of_string. exact IH.
Qed.

Lemma applyTransformations_untouched_witness :
  applyTransformations "The blue cat." blackwhite = "The blue cat."%string.
Proof.
  apply (applyTransformations_untouched blackwhite "The blue cat.").
  - repeat constructor.
  - repeat constructor.
Defined.

(** X9: rules of the literal fragment (printable ASCII pattern without
    metacharacters, replacement without [$]) whose replacement is as long
    as the pattern keep the length of the text. *)
Theorem applyTransformations_keeps_length
    (ts : list (Transformation LiteralRegexp.t)) (s : string) :
  Forall literal_rule ts ->
  Forall same_length ts ->
  len (bytes (applyTransformations s ts)) = len (bytes s).
Proof.
  intros _ Hall. revert s.
  induction Hall as [| [[pat] repl] ts [Hne Hlen] _ IH]; intros s; [reflexivity |].
  change {| Pattern := Lit pat; Replacement := repl |} with (rule pat repl).
  rewrite literal_step, IH.
  cbn [Pattern Replacement] in Hlen. unfold len in *.
  unfold bytes at 1. rewrite list_byte_of_string_of_list_byte.
  f_equal.
  apply (ReplacedAll_same_length (bytes pat) (bytes repl)); [lia |].
  apply replaceAll_ReplacedAll.
  intros Hempty. apply Hne. cbn [Pattern]. f_equal.
  apply bytes_empty. exact Hempty.
Qed.

Lemma applyTransformations_keeps_length_witness :
  len (bytes (applyTransformations "The black cat." [rule "black" "white"]))
  = len (bytes "The black cat.").
Proof.
  apply (applyTransformations_keeps_length [rule "black" "white"] "The black cat.").
  - constructor; [| constructor]. split; reflexivity.
  - constructor; [| constructor].
    split; [unfold nonempty_pattern; simpl; discriminate | reflexivity].
Defined.

(** X10: the order of the rules matters. For rules a -> b and b -> c of
    the literal fragment, applied in this order the text [a] becomes [c],
    the second rule working on what the first produced; in the other
    order, when [b] does not occur in [a], it becomes [b]. *)
Theorem rule_order_matters (a b c : string) :
  literal_rule (rule a b) -> literal_rule (rule b c) ->
  applyTransformations a [rule a b; rule b c] = c
  /\ (first_match (bytes b) (bytes a) = None ->
      applyTransformations a [rule b c; rule a b] = b).
Proof.
  intros [Hla _] [Hlb _].
  assert (Ha : a <> EmptyString).
  { intros E. apply (literal_text_nonempty a Hla). rewrite E. reflexivity. }
  assert (Hb : b <> EmptyString).
  { intros E. apply (literal_text_nonempty b Hlb). rewrite E. reflexivity. }
  assert (Hself : forall p q : string,
             p <> EmptyString ->
             string_of_list_byte (replaceAll (bytes p) (bytes q) (bytes p)) = q).
  { intros p q Hp.
    assert (Hne : bytes p <> []) by (intros E; apply Hp, bytes_empty, E).
    rewrite (replaceAll_self _ _ Hne).
    apply string_of_list_byte_of_string. }
  split.
  - rewrite !literal_step, (Hself a b Ha), (Hself b c Hb). reflexivity.
  - intros Hnone. rewrite !literal_step.
    rewrite (first_match_none _ _ _ Hnone).
    assert (Hback : string_of_list_byte (bytes a) = a)
      by apply string_of_list_byte_of_string.
    rewrite Hback, (Hself a b Ha). reflexivity.
Qed.

Lemma rule_order_matters_witness :
  applyTransformations "black" [rule "black" "white"; rule "white" "grey"]
  = "grey"%string
  /\ (first_match (bytes "white") (bytes "black") = None ->
      applyTransformations "black" [rule "white" "grey"; rule "black" "white"]
      = "white"%string).
Proof.
  apply (rule_order_matters "black" "white" "grey"); split; reflexivity.
Defined.

(** X11: a match that spans the boundary of two chunks is found by the
    second [Write]: when the first chunk [u ++ pat1] fits in the lookback
    and ends with the beginning of the leftmost occurrence of the pattern,
    the second call forwards [u], the replacement, and the rest of the
    second chunk with its own matches replaced. The first call had already
    forwarded the first chunk as it then read. The rule is one of the
    literal fragment. *)
Theorem boundary_match_replaced (pat repl : string) (r : Recorder.t)
    (u pat1 pat2 v : list byte) :
  literal_rule (rule pat repl) ->
  bytes pat = pat1 ++ pat2 ->
  len (u ++ pat1) <= maxTransformLength ->
  first_match (bytes pat) (u ++ bytes pat ++ v) = Some (List.length u) ->
  Recorder.calls
    (w (fst (WriteAll (newTransformWriter r [rule pat repl])
                      [u ++ pat1; pat2 ++ v])))
  = Recorder.calls r
    ++ [replaceAll (bytes pat) (bytes repl) (u ++ pat1);
        u ++ bytes repl ++ replaceAll (bytes pat) (bytes repl) v].
Proof.
  unfold maxTransformLength, len. intros [Hlit _] Hsplit Hfit Hfirst.
  pose proof (literal_text_nonempty pat Hlit) as Hne.
  rewrite WriteAll_calls.
  cbn [newTransformWriter w transformations buffer payloads map app].
  rewrite !forwarded_literal.
  rewrite last_bytes_short by lia.
  replace ((u ++ pat1) ++ pat2 ++ v) with (u ++ bytes pat ++ v)
    by (rewrite Hsplit, <- !app_assoc; reflexivity).
  rewrite (first_match_some _ _ _ _ Hne Hfirst).
  rewrite firstn_app, firstn_all, Nat.sub_diag. cbn [firstn]. rewrite app_nil_r.
  rewrite <- length_app, (app_assoc u (bytes pat) v).
  rewrite skipn_app, skipn_all, Nat.sub_diag. reflexivity.
Qed.

Lemma boundary_match_replaced_witness :
  Recorder.calls
    (w (fst (WriteAll (newTransformWriter Recorder.accepting [rule "black" "white"])
                      [bytes "The " ++ bytes "bla"; bytes "ck" ++ bytes " cat"])))
  = Recorder.calls Recorder.accepting
    ++ [replaceAll (bytes "black") (bytes "white") (bytes "The " ++ bytes "bla");
        bytes "The " ++ bytes "white"
        ++ replaceAll (bytes "black") (bytes "white") (bytes " cat")].
Proof.
  apply (boundary_match_replaced "black" "white" Recorder.accepting
           (bytes "The ") (bytes "bla") (bytes "ck") (bytes " cat")).
  - split; reflexivity.
  - vm_compute. reflexivity.
  - vm_compute. discriminate.
  - vm_compute. reflexivity.
Defined.

(** ** Strings *)

Lemma string_app_assoc (a b c : string) :
  ((a ++ b) ++ c)%string = (a ++ b ++ c)%string.
Proof.
  induction a as [| x a IH]; simpl; [reflexivity | rewrite IH; reflexivity].
Qed.

Lemma string_app_inv_head (a x y : string) :
  (a ++ x)%string = (a ++ y)%string -> x = y.
Proof.
  induction a as [| c a IH]; simpl; intros Heq; [exact Heq |].
  injection Heq as Heq. apply IH. exact Heq.
Qed.

Lemma percent_free_app (a b : string) :
  percent_free (a ++ b) = percent_free a && percent_free b.
Proof.
  induction a as [| c a IH]; simpl; [reflexivity |].
  rewrite IH. apply andb_assoc.
Qed.

Lemma format_trailing_percent_spec (s : string) :
  format_trailing_percent (s ++ "%") = (s ++ "%!(NOVERB)")%string.
Proof.
  induction s as [| c s IH]; [reflexivity |].
  change (String c s ++ "%")%string with (String c (s ++ "%")).
  cbn [format_trailing_percent]. rewrite IH.
  destruct (s ++ "%")%string eqn:E; [| reflexivity].
  destruct s; discriminate E.
Qed.

(** ** More on the configuration *)

Section MoreConfigFacts.

Context {R : Type} `{Regexp R}.
Context {RC WC B : Type} `{Closer RC} `{Broadcaster B}.
Variable Errorf : string -> error.
Variable new_Unbuffered : B.
Variable io_Pipe : RC * WC.
Variable NopWriteCloser_Discard : WC.

Lemma failure_nil (name : string) (res : option error) :
  failure name res = [] <-> res = None.
Proof.
  destruct res; simpl; split; intros E; try reflexivity; discriminate E.
Qed.

Lemma CloseStreams_eq (c : Config RC WC B) :
  CloseStreams Errorf c
  = let closed := option_map Close (stdin c) in
    let messages :=
      match closed with Some (_, res) => failure "stdin" res | None => [] end
      ++ failure "stdout" (snd (Clean (stdout c)))
      ++ failure "stderr" (snd (Clean (stderr c))) in
    ({| wg := wg c; stdout := fst (Clean (stdout c));
        stderr := fst (Clean (stderr c));
        stdin := option_map fst closed;
        stdinPipe := stdinPipe c; dio := dio c |},
     match messages with
     | [] => None
     | _ :: _ =>
         Some (Errorf (Join messages (String (ascii_of_nat 10) EmptyString)))
     end).
Proof.
  unfold CloseStreams. destruct (stdin c) as [r |]; cbn [option_map].
  - destruct (Close r) as [r' res0].
    destruct (Clean (stdout c)) as [o' res1].
    destruct (Clean (stderr c)) as [e' res2].
    rewrite !collect_failure, len_positive. cbn [fst snd app].
    rewrite <- app_assoc.
    destruct (failure "stdin" res0 ++ failure "stdout" res1 ++ failure "stderr" res2);
      reflexivity.
  - destruct (Clean (stdout c)) as [o' res1].
    destruct (Clean (stderr c)) as [e' res2].
    rewrite !collect_failure, len_positive. cbn [fst snd app].
    destruct (failure "stdout" res1 ++ failure "stderr" res2); reflexivity.
Qed.

(** C9: [CloseStreams] does attempt every operation and keeps every
    message, but it hands the joined messages to [fmt.Errorf] as the format.
    Given what [fmt] does with a format that ends in [%] and has no other
    (it appends [!(NOVERB)] to it), when both broadcasters fail and the
    stderr message ends in [%], the text of the returned error is not the
    two messages joined by a newline. *)
Theorem CloseStreams_formats_joined_messages
    (c : Config RC WC B) (e1 e2 : error) (m2 : string) :
  (forall s, percent_free s = true ->
             Error (Errorf (s ++ "%")) = (s ++ "%!(NOVERB)")%string) ->
  stdin c = None ->
  snd (Clean (stdout c)) = Some e1 ->
  snd (Clean (stderr c)) = Some e2 ->
  percent_free (Error e1) = true ->
  percent_free m2 = true ->
  Error e2 = (m2 ++ "%")%string ->
  exists e,
    snd (CloseStreams Errorf c) = Some e
    /\ Error e
       = ("error close stdout: " ++ Error e1 ++ LF
          ++ "error close stderr: " ++ m2 ++ "%!(NOVERB)")%string
    /\ Error e
       <> ("error close stdout: " ++ Error e1 ++ LF
           ++ "error close stderr: " ++ Error e2)%string.
Proof.
  intros Hfmt Hstdin Hout Herr Hfree1 Hfree2 Hm2.
  set (prefix := ("error close stdout: " ++ Error e1 ++ LF
                  ++ "error close stderr: " ++ m2)%string).
  assert (Hjoined :
            Join [close_message "stdout" e1; close_message "stderr" e2] LF
            = (prefix ++ "%")%string).
  { subst prefix. unfold close_message. cbn [Join].
    rewrite Hm2, !string_app_assoc. reflexivity. }
  assert (Hprefix : percent_free prefix = true).
  { subst prefix. rewrite !percent_free_app, Hfree1, Hfree2. reflexivity. }
  exists (Errorf (prefix ++ "%")).
  split; [| split].
  - rewrite CloseStreams_eq. cbv zeta. rewrite Hstdin, Hout, Herr.
    cbn [option_map failure app snd]. fold LF. rewrite Hjoined. reflexivity.
  - rewrite (Hfmt prefix Hprefix). subst prefix.
    rewrite !string_app_assoc. reflexivity.
  - rewrite (Hfmt prefix Hprefix), Hm2. intros Heq.
    assert (Hsame : (prefix ++ "%!(NOVERB)")%string = (prefix ++ "%")%string).
    { rewrite Heq. subst prefix. rewrite !string_app_assoc. reflexivity. }
    apply string_app_inv_head in Hsame. discriminate Hsame.
Qed.

(** X12: [CloseStreams] returns nil exactly when closing stdin (if there is
    one) and cleaning both broadcasters all succeeded. It leaves the wait
    group, the stdin pipe writer and the attached source as they were: the
    writer end of the stdin pipe is never closed here. *)
Theorem CloseStreams_nil_iff_all_succeed (c : Config RC WC B) :
  (snd (CloseStreams Errorf c) = None
   <-> match stdin c with
       | Some r => snd (Close r) = None
       | None => True
       end
       /\ snd (Clean (stdout c)) = None
       /\ snd (Clean (stderr c)) = None)
  /\ wg (fst (CloseStreams Errorf c)) = wg c
  /\ stdinPipe (fst (CloseStreams Errorf c)) = stdinPipe c
  /\ dio (fst (CloseStreams Errorf c)) = dio c.
Proof.
  rewrite CloseStreams_eq. cbv zeta. cbn [fst snd wg stdinPipe dio].
  split; [| repeat split].
  destruct (stdin c) as [r |]; cbn [option_map];
    [destruct (Close r) as [r' [e0 |]] |];
    destruct (Clean (stdout c)) as [o' [e1 |]];
    destruct (Clean (stderr c)) as [e' [e2 |]];
    cbn [failure app snd];
    (split; [intros E; try discriminate E; repeat split
            | intros (E0 & E1 & E2);
              try discriminate E0; try discriminate E1; try discriminate E2;
              reflexivity]).
Qed.

Lemma wg_after_copy_task (n : Z) (tw : TransformWriter R B) (r : RC)
    (copy_err close_err : option error) :
  wg_after_steps n
    (after_copy (WC := WC) (copyTask tw r) copy_err close_err)
  = n - 1.
Proof. destruct copy_err; reflexivity. Qed.

Lemma wg_after_stdin_task (n : Z) (dst : WC) (src : RC)
    (copy_err close_err : option error) :
  wg_after_steps n
    (after_copy (R := R) (B := B) (stdinTask dst src) copy_err close_err)
  = n.
Proof. destruct close_err; reflexivity. Qed.

(** X13: the wait group is balanced. Whatever results the copies meet, once
    every task started by [CopyToPipe] has returned from its copy the
    counter is back to what it was before the call, so [Wait] is released;
    the stdin task plays no part in it. *)
Theorem CopyToPipe_counter_balanced (c : Config RC WC B) (iop : DirectIO RC WC)
    (copy_res close_res : Goroutine R RC WC B -> option error) :
  wg_after_tasks (wg (fst (CopyToPipe c iop)))
                 (spawned (snd (CopyToPipe c iop))) copy_res close_res
  = wg c.
Proof.
  unfold CopyToPipe, CopyToPipe_effects, wg_after_tasks, copyFunc.
  cbn [fst snd wg].
  destruct (dio_Stdout iop), (dio_Stderr iop), (Stdin c) as [src |];
    try destruct (dio_Stdin iop);
    cbn [app wg_after spawned fold_left];
    rewrite ?wg_after_stdin_task, ?wg_after_copy_task; lia.
Qed.

(** X14: [CopyToPipe] starts at most three tasks and moves the counter by
    at most two. The stdin task is started exactly when the configuration
    has a stdin reader and the source a stdin; nothing is started exactly
    when the source has neither stdout nor stderr and there is no stdin
    task. The source is recorded in any case, and the streams of the
    configuration are left as they were. *)
Theorem CopyToPipe_tasks_and_frame (c : Config RC WC B) (iop : DirectIO RC WC) :
  let c' := fst (CopyToPipe (R := R) c iop) in
  let tasks := spawned (snd (CopyToPipe (R := R) c iop)) in
  wg c <= wg c' <= wg c + 2
  /\ (List.length tasks <= 3)%nat
  /\ (forall dst src,
        In (stdinTask dst src) tasks
        <-> Stdin c = Some src /\ dio_Stdin iop = Some dst)
  /\ (tasks = []
      <-> dio_Stdout iop = None /\ dio_Stderr iop = None
          /\ (Stdin c = None \/ dio_Stdin iop = None))
  /\ dio c' = Some iop
  /\ stdout c' = stdout c /\ stderr c' = stderr c
  /\ stdin c' = stdin c /\ stdinPipe c' = stdinPipe c.
Proof.
  intros c' tasks. subst c' tasks.
  unfold CopyToPipe, CopyToPipe_effects, copyFunc, Stdin.
  cbn [fst snd wg dio stdout stderr stdin stdinPipe].
  destruct (dio_Stdout iop) as [ro |], (dio_Stderr iop) as [re |],
           (stdin c) as [src0 |], (dio_Stdin iop) as [dst0 |];
    cbn [app wg_after spawned List.length];
    (split; [lia |]); (split; [lia |]);
    (split; [| split; [| repeat split]]);
    try (intros dst src; split;
         [ intros Hin; simpl in Hin;
           repeat match goal with
                  | Hd : _ \/ _ |- _ => destruct Hd as [Hd | Hd]
                  | Hd : False |- _ => destruct Hd
                  | Hd : copyTask _ _ = stdinTask _ _ |- _ => discriminate Hd
                  | Hd : stdinTask _ _ = stdinTask _ _ |- _ =>
                      injection Hd as <- <-
                  end; split; reflexivity
         | intros [Hs Hd]; try discriminate Hs; try discriminate Hd;
           injection Hs as <-; injection Hd as <-;
           simpl; auto ]);
    try (split; [discriminate | intros (E1 & E2 & E3)];
         first [discriminate E1 | discriminate E2
               | destruct E3 as [E3 | E3]; discriminate E3]);
    try (split; [reflexivity | intros _; reflexivity]);
    try (split; intros _; [repeat split; auto | reflexivity]).
Qed.

(** X15: input pipes and the stdin task. On a new configuration, and still
    after [NewNopInputPipe], [CopyToPipe] starts no stdin task whatever the
    source offers, so nothing ever reaches the process's stdin. After
    [NewInputPipes] the stdin task is started for every source with a stdin
    and reads from the read end of the new pipe. [NewNopInputPipe] replaces
    only the writer: called after [NewInputPipes] it leaves the old read
    end in place, and the stdin task is still started on it. *)
Theorem input_pipes_and_stdin_task (iop : DirectIO RC WC) (dst : WC) :
  let fresh := NewConfig (RC := RC) (WC := WC) new_Unbuffered in
  let tasks c := spawned (snd (CopyToPipe (R := R) c iop)) in
  forallb is_copyTask (tasks fresh) = true
  /\ forallb is_copyTask (tasks (NewNopInputPipe NopWriteCloser_Discard fresh))
     = true
  /\ StdinPipe (NewNopInputPipe NopWriteCloser_Discard fresh)
     = Some NopWriteCloser_Discard
  /\ (dio_Stdin iop = Some dst ->
      In (stdinTask dst (fst io_Pipe)) (tasks (NewInputPipes io_Pipe fresh))
      /\ In (stdinTask dst (fst io_Pipe))
            (tasks (NewNopInputPipe NopWriteCloser_Discard
                      (NewInputPipes io_Pipe fresh)))).
Proof.
  intros fresh tasks. subst fresh tasks.
  unfold CopyToPipe, CopyToPipe_effects, copyFunc, Stdin, StdinPipe,
    NewNopInputPipe, NewInputPipes, NewConfig.
  cbn [fst snd stdin stdinPipe].
  split; [| split; [| split; [reflexivity |]]].
  - destruct (dio_Stdout iop), (dio_Stderr iop); reflexivity.
  - destruct (dio_Stdout iop), (dio_Stderr iop); reflexivity.
  - intros Hdst. rewrite Hdst.
    split; rewrite !spawned_app; apply in_or_app; right;
      apply in_or_app; right; simpl; left; reflexivity.
Qed.

(** X16: [Wait] and the attached source. When the context is done first,
    [Wait] cancels, waits for and closes, in this order, the source given
    to the last [CopyToPipe], whatever was attached before; on a
    configuration that never went through [CopyToPipe] it calls nothing.
    When the wait group is released first it calls nothing either. *)
Theorem Wait_aborts_attached_source (c : Config RC WC B)
    (iop1 iop2 : DirectIO RC WC) (fired : Select) :
  Wait (fst (CopyToPipe (R := R) (fst (CopyToPipe (R := R) c iop1)) iop2))
       CtxDone
  = [DioCancel iop2; DioWait iop2; DioClose iop2]
  /\ Wait (NewConfig (RC := RC) (WC := WC) new_Unbuffered) fired = []
  /\ Wait (NewInputPipes io_Pipe (NewConfig new_Unbuffered)) fired = []
  /\ Wait (fst (CopyToPipe (R := R) c iop1)) DoneClosed = []
  /\ Wait (fst (CloseStreams Errorf (fst (CopyToPipe (R := R) c iop1)))) CtxDone
     = [DioCancel iop1; DioWait iop1; DioClose iop1].
Proof.
  split; [reflexivity | split; [| split; [| split; [reflexivity |]]]].
  - destruct fired; reflexivity.
  - destruct fired; reflexivity.
  - rewrite CloseStreams_eq. reflexivity.
Qed.

End MoreConfigFacts.

Lemma input_pipes_and_stdin_task_witness :
  In (stdinTask "process stdin"%string "pipe reader"%string)
     (spawned (snd (CopyToPipe (R := LiteralRegexp.t)
                      (NewInputPipes ("pipe reader"%string, "pipe writer"%string)
                         (NewConfig "broadcaster"%string))
                      iop0)))
  /\ In (stdinTask "process stdin"%string "pipe reader"%string)
        (spawned (snd (CopyToPipe (R := LiteralRegexp.t)
                         (NewNopInputPipe "discard"%string
                            (NewInputPipes
                               ("pipe reader"%string, "pipe writer"%string)
                               (NewConfig "broadcaster"%string)))
                         iop0))).
Proof.
  apply (proj2 (proj2 (proj2
           (input_pipes_and_stdin_task (R := LiteralRegexp.t)
              "broadcaster"%string
              ("pipe reader"%string, "pipe writer"%string)
              "discard"%string iop0 "process stdin"%string)))).
  reflexivity.
Defined.

Lemma CloseStreams_formats_joined_messages_witness :
  exists e,
    snd (CloseStreams (fun format => {| Error := format_trailing_percent format |})
                      failing_config)
    = Some e
    /\ Error e
       = ("error close stdout: " ++ "pipe closed" ++ LF
          ++ "error close stderr: " ++ "disk at 100" ++ "%!(NOVERB)")%string
    /\ Error e
       <> ("error close stdout: " ++ "pipe closed" ++ LF
           ++ "error close stderr: " ++ "disk at 100%")%string.
Proof.
  apply (CloseStreams_formats_joined_messages
           (fun format => {| Error := format_trailing_percent format |})
           failing_config {| Error := "pipe closed" |}
           {| Error := "disk at 100%" |} "disk at 100").
  - intros s _. apply format_trailing_percent_spec.
  - reflexivity.
  - reflexivity.
  - reflexivity.
  - reflexivity.
  - reflexivity.
  - reflexivity.
Defined.
